(** * A shallow embedding of the core of python_dice

    Covered here:
    - the constraint subsystem ([VarValueConstraint], [ImpossibleConstraint],
      the [ConstraintFactory] interface);
    - the probability-distribution algebra used by [AddExpression]
      (weights per outcome, convolution, [min]/[max], total weight);
    - the two [Add] nodes ([pydice_syntax/add.py] and
      [python_dice_expression/add_expression.py]);
    - the [DICE] token regular expression and Python's [re.match]. *)

From Stdlib Require Import ZArith Lia Ascii String.
From stdpp Require Import base gmap sets strings list.

Open Scope Z_scope.

(* ================================================================= *)
(** ** Constraints *)

Module Constraint.

(** Modelled from the spec: the constraint classes
    [python_dice/src/constraint/var_value_constraint.py] and
    [impossible_constraint.py], of which only the tests are available.
    [OtherConstraint] stands for any other implementation of [IConstraint]
    (the tests pass [create_autospec(IConstraint)] mocks); it is told apart
    by an opaque tag. *)
Inductive IConstraint :=
| VarValueConstraint (name : string) (values : gset Z)
| ImpossibleConstraint
| OtherConstraint (tag : nat).

(** The variable-value mapping [var_values : Dict[str, int]]. *)
Abbreviation var_values_t := (gmap string Z).

(** Errors raised by constraint methods. *)
Inductive error := ValueError.

(** Modelled from the spec: the [IConstraintFactory] interface, the only
    constructor surface for constraints. The tests replace it by a mock, so
    the methods below are parametric in it. *)
Class IConstraintFactory := {
  var_value_constraint : string -> gset Z -> IConstraint;
  impossible_constraint : IConstraint
}.

(** Modelled from the spec: the concrete [ConstraintFactory]. *)
#[global] Instance ConstraintFactory : IConstraintFactory := {
  var_value_constraint name values := VarValueConstraint name values;
  impossible_constraint := ImpossibleConstraint
}.

Section Methods.
Context `{F : IConstraintFactory}.

(** Modelled from the spec: [complies(var_values)]. A [VarValueConstraint]
    checks the bound value of its variable, when there is one; the impossible
    sentinel filters nothing. *)
Definition complies (c : IConstraint) (var_values : var_values_t) : bool :=
  match c with
  | VarValueConstraint name values =>
      match var_values !! name with
      | Some v => bool_decide (v ∈ values)
      | None => true
      end
  | ImpossibleConstraint => true
  | OtherConstraint _ => true
  end.

(** Modelled from the spec: [can_merge(other)]. *)
Definition can_merge (c other : IConstraint) : bool :=
  match c with
  | VarValueConstraint name _ =>
      match other with
      | VarValueConstraint name' _ => bool_decide (name = name')
      | _ => false
      end
  | ImpossibleConstraint => true
  | OtherConstraint _ => false
  end.

(** Modelled from the spec: [merge(other)]. A [VarValueConstraint] raises
    [ValueError] unless [other] is a [VarValueConstraint] on the same name;
    otherwise it intersects the value sets and asks its factory for the
    result. The impossible sentinel absorbs everything. *)
Definition merge (c other : IConstraint) : IConstraint + error :=
  match c with
  | VarValueConstraint name values =>
      match other with
      | VarValueConstraint name' values' =>
          if bool_decide (name = name') then
            let new_values := values ∩ values' in
            if Nat.eqb (size new_values) 0 then inl impossible_constraint
            else inl (var_value_constraint name new_values)
          else inr ValueError
      | _ => inr ValueError
      end
  | ImpossibleConstraint => inl ImpossibleConstraint
  | OtherConstraint _ => inr ValueError
  end.

(** Modelled from the spec: [is_possible()]. *)
Definition is_possible (c : IConstraint) : bool :=
  match c with
  | VarValueConstraint _ values => negb (Nat.eqb (size values) 0)
  | ImpossibleConstraint => false
  | OtherConstraint _ => true
  end.

End Methods.

End Constraint.

(* ================================================================= *)
(** ** Probability distributions *)

Module ProbabilityDistribution.

(** Modelled from the spec: [python_dice/src/probability_distribution.py],
    a mapping from outcome to non-negative integer weight, kept as an
    association list [(outcome, weight)] like the insertion-ordered dict of
    the source. *)
Abbreviation t := (list (Z * N)).

(** [result[k] = result.get(k, 0) + v] *)
Fixpoint add_weight (k : Z) (v : N) (m : t) : t :=
  match m with
  | [] => [(k, v)]
  | (k', v') :: m' =>
      if Z.eqb k k' then (k', (v' + v)%N) :: m' else (k', v') :: add_weight k v m'
  end.

(** Modelled from the spec: [__add__], the discrete convolution: for every
    pair of outcomes [(a, b)] the weight [wa * wb] is added to [a + b]. *)
Definition add (d1 d2 : t) : t :=
  fold_left (fun acc '(a, wa) =>
    fold_left (fun acc' '(b, wb) => add_weight (a + b) (wa * wb) acc') d2 acc)
    d1 [].

(** The total weight (the sample-space size). *)
Fixpoint total_weight (d : t) : N :=
  match d with
  | [] => 0%N
  | (_, w) :: d' => (w + total_weight d')%N
  end.

(** Modelled from the spec: [min()] and [max()], the smallest and largest
    outcome of non-zero weight. Python's [min] of an empty sequence raises,
    which is [None] here. *)
Fixpoint min (d : t) : option Z :=
  match d with
  | [] => None
  | (k, w) :: d' =>
      if N.eqb w 0 then min d'
      else match min d' with
           | Some m => Some (Z.min k m)
           | None => Some k
           end
  end.

Fixpoint max (d : t) : option Z :=
  match d with
  | [] => None
  | (k, w) :: d' =>
      if N.eqb w 0 then max d'
      else match max d' with
           | Some m => Some (Z.max k m)
           | None => Some k
           end
  end.

(** Modelled from the spec: [fromConstant] and [fromUniformDie]. *)
Definition from_constant (v : Z) : t := [(v, 1%N)].

Definition from_uniform_die (sides : nat) : t :=
  map (fun i => (Z.of_nat (S i), 1%N)) (seq 0 sides).

(** An outcome carries non-zero weight. *)
Definition has_outcome (d : t) (k : Z) : Prop :=
  exists w, In (k, w) d /\ w <> 0%N.

End ProbabilityDistribution.

(* ================================================================= *)
(** ** The two [Add] nodes *)

(** [python_dice/src/pydice_syntax]: nodes compute their bounds directly. *)
Module PydiceSyntax.

(** An [IDiceSyntax] tree: [Add] from [add.py]; [Leaf] stands for every
    other node, of which only [roll]/[max]/[min] results matter here. *)
Inductive IDiceSyntax :=
| Leaf (min_value max_value : Z)
| Add (expression_one expression_two : IDiceSyntax).

Fixpoint max (e : IDiceSyntax) : Z :=
  match e with
  | Leaf _ hi => hi
  | Add e1 e2 => max e1 + max e2
  end.

Fixpoint min (e : IDiceSyntax) : Z :=
  match e with
  | Leaf lo _ => lo
  | Add e1 e2 => min e1 + min e2
  end.

(** [TOKEN_NAME] and [TOKEN_REGEX] of [Add]. *)
Definition TOKEN_NAME : string := "ADD".
Definition TOKEN_REGEX : string := "\+".

Section Roll.
(** The random state the leaves draw from, and how a leaf rolls. *)
Context {R : Type} (leaf_roll : Z -> Z -> R -> Z * R).

(** [roll()]: [self._expression_one.roll() + self._expression_two.roll()],
    the left child rolled first. *)
Fixpoint roll (e : IDiceSyntax) (r : R) : Z * R :=
  match e with
  | Leaf lo hi => leaf_roll lo hi r
  | Add e1 e2 =>
      let '(v1, r1) := roll e1 r in
      let '(v2, r2) := roll e2 r1 in
      (v1 + v2, r2)
  end.

End Roll.

(** Every leaf of the tree has [min <= max]. *)
Fixpoint leaves_ordered (e : IDiceSyntax) : Prop :=
  match e with
  | Leaf lo hi => lo <= hi
  | Add e1 e2 => leaves_ordered e1 /\ leaves_ordered e2
  end.

Section Str.
Context (leaf_str : Z -> Z -> string).

(** [__str__]: [f"{str(self._expression_one)} + {str(self._expression_two)}"]. *)
Fixpoint to_str (e : IDiceSyntax) : string :=
  match e with
  | Leaf lo hi => leaf_str lo hi
  | Add e1 e2 => String.append (to_str e1) (String.append " + " (to_str e2))
  end.

End Str.

End PydiceSyntax.

(** [python_dice/src/python_dice_expression]: [AddExpression] derives its
    bounds from its probability distribution. *)
Module PythonDiceExpression.

Module PD := ProbabilityDistribution.

(** An [IDiceExpression] tree: [AddExpression] from [add_expression.py];
    [LeafExpression] stands for every other node, given by its
    distribution (modelled from the spec: its [min]/[max] default to those
    of its distribution). *)
Inductive IDiceExpression :=
| LeafExpression (d : PD.t)
| AddExpression (expression_one expression_two : IDiceExpression).

Fixpoint get_probability_distribution (e : IDiceExpression) : PD.t :=
  match e with
  | LeafExpression d => d
  | AddExpression e1 e2 =>
      PD.add (get_probability_distribution e1) (get_probability_distribution e2)
  end.

Definition max (e : IDiceExpression) : option Z :=
  PD.max (get_probability_distribution e).

Definition min (e : IDiceExpression) : option Z :=
  PD.min (get_probability_distribution e).

Section Roll.
Context {R : Type} (leaf_roll : PD.t -> R -> Z * R).

(** [roll()]: the left child rolled first. *)
Fixpoint roll (e : IDiceExpression) (r : R) : Z * R :=
  match e with
  | LeafExpression d => leaf_roll d r
  | AddExpression e1 e2 =>
      let '(v1, r1) := roll e1 r in
      let '(v2, r2) := roll e2 r1 in
      (v1 + v2, r2)
  end.

End Roll.

Section Str.
Context (leaf_str : PD.t -> string).

(** [__str__]. *)
Fixpoint to_str (e : IDiceExpression) : string :=
  match e with
  | LeafExpression d => leaf_str d
  | AddExpression e1 e2 => String.append (to_str e1) (String.append " + " (to_str e2))
  end.

End Str.

(** Every leaf distribution of the tree has an outcome. *)
Fixpoint leaves_nonempty (e : IDiceExpression) : Prop :=
  match e with
  | LeafExpression d => exists k, PD.has_outcome d k
  | AddExpression e1 e2 => leaves_nonempty e1 /\ leaves_nonempty e2
  end.

(** The product of the total weights of the leaves of a tree. *)
Fixpoint leaf_weight_product (e : IDiceExpression) : N :=
  match e with
  | LeafExpression d => PD.total_weight d
  | AddExpression e1 e2 => (leaf_weight_product e1 * leaf_weight_product e2)%N
  end.

End PythonDiceExpression.

(* ================================================================= *)
(** ** Python's [re.match] on the patterns used by the lexer *)

Module Re.

(** Regular expressions over ASCII characters. [RClass p] matches one
    character satisfying [p]. *)
Inductive regex :=
| RVoid
| REps
| RClass (p : ascii -> bool)
| RCat (r1 r2 : regex)
| RAlt (r1 r2 : regex)
| RStar (r : regex).

Definition RPlus (r : regex) : regex := RCat r (RStar r).
Definition ROpt (r : regex) : regex := RAlt REps r.
Definition RLit (c : ascii) : regex := RClass (Ascii.eqb c).

(** [\d] and [\s] of a [str] pattern, restricted to ASCII: the digits
    [0-9], and the characters 9-13, 28-31 and 32 (those for which
    [str.isspace] holds). *)
Definition is_digit (c : ascii) : bool :=
  let n := nat_of_ascii c in Nat.leb 48 n && Nat.leb n 57.

Definition is_space (c : ascii) : bool :=
  let n := nat_of_ascii c in
  (Nat.leb 9 n && Nat.leb n 13) || (Nat.leb 28 n && Nat.leb n 32).

(** Pattern syntax: the subset of Python's syntax used by the token
    patterns of the lexer: literals, [\d], [\s], escaped literals, groups,
    [|], and the postfix quantifiers [*], [+], [?]. [None] is [re.error]. *)
Definition escape (c : ascii) : regex :=
  if Ascii.eqb c "d"%char then RClass is_digit
  else if Ascii.eqb c "s"%char then RClass is_space
  else RLit c.

Definition postfix (a : regex) (s : list ascii) : regex * list ascii :=
  match s with
  | c :: s' =>
      if Ascii.eqb c "*"%char then (RStar a, s')
      else if Ascii.eqb c "+"%char then (RPlus a, s')
      else if Ascii.eqb c "?"%char then (ROpt a, s')
      else (a, s)
  | [] => (a, s)
  end.

Fixpoint parse_alt (fuel : nat) (s : list ascii) : option (regex * list ascii) :=
  match fuel with
  | O => None
  | S f =>
      match parse_seq f s with
      | Some (r, c :: rest) =>
          if Ascii.eqb c "|"%char then
            match parse_alt f rest with
            | Some (r2, rest2) => Some (RAlt r r2, rest2)
            | None => None
            end
          else Some (r, c :: rest)
      | res => res
      end
  end
with parse_seq (fuel : nat) (s : list ascii) : option (regex * list ascii) :=
  match fuel with
  | O => None
  | S f =>
      match s with
      | [] => Some (REps, [])
      | c :: _ =>
          if Ascii.eqb c ")"%char || Ascii.eqb c "|"%char then Some (REps, s)
          else
            match parse_atom f s with
            | Some (a, rest) =>
                let '(a', rest') := postfix a rest in
                match parse_seq f rest' with
                | Some (r, rest'') => Some (RCat a' r, rest'')
                | None => None
                end
            | None => None
            end
      end
  end
with parse_atom (fuel : nat) (s : list ascii) : option (regex * list ascii) :=
  match fuel with
  | O => None
  | S f =>
      match s with
      | c :: rest =>
          if Ascii.eqb c "("%char then
            match parse_alt f rest with
            | Some (r, c' :: rest') =>
                if Ascii.eqb c' ")"%char then Some (r, rest') else None
            | _ => None
            end
          else if Ascii.eqb c "\"%char then
            match rest with
            | c' :: rest' => Some (escape c', rest')
            | [] => None
            end
          else Some (RLit c, rest)
      | [] => None
      end
  end.

Definition compile (pattern : string) : option regex :=
  let s := list_ascii_of_string pattern in
  match parse_alt (S (3 * length s)) s with
  | Some (r, []) => Some r
  | _ => None
  end.

(** The language of a regular expression. *)
Inductive in_re : regex -> list ascii -> Prop :=
| in_eps : in_re REps []
| in_class p c : p c = true -> in_re (RClass p) [c]
| in_cat r1 r2 s1 s2 : in_re r1 s1 -> in_re r2 s2 -> in_re (RCat r1 r2) (s1 ++ s2)
| in_alt_l r1 r2 s : in_re r1 s -> in_re (RAlt r1 r2) s
| in_alt_r r1 r2 s : in_re r2 s -> in_re (RAlt r1 r2) s
| in_star_nil r : in_re (RStar r) []
| in_star_cons r s1 s2 : in_re r s1 -> in_re (RStar r) s2 -> in_re (RStar r) (s1 ++ s2).

(** [re.match] anchors at the start only: some prefix is in the language. *)
Definition matches_prefix (r : regex) (s : list ascii) : Prop :=
  exists p q, s = p ++ q /\ in_re r p.

(** The executable matcher: Brzozowski derivatives. *)
Fixpoint nullable (r : regex) : bool :=
  match r with
  | RVoid => false
  | REps => true
  | RClass _ => false
  | RCat r1 r2 => nullable r1 && nullable r2
  | RAlt r1 r2 => nullable r1 || nullable r2
  | RStar _ => true
  end.

Fixpoint deriv (c : ascii) (r : regex) : regex :=
  match r with
  | RVoid => RVoid
  | REps => RVoid
  | RClass p => if p c then REps else RVoid
  | RCat r1 r2 =>
      if nullable r1 then RAlt (RCat (deriv c r1) r2) (deriv c r2)
      else RCat (deriv c r1) r2
  | RAlt r1 r2 => RAlt (deriv c r1) (deriv c r2)
  | RStar r1 => RCat (deriv c r1) (RStar r1)
  end.

Fixpoint match_prefix (r : regex) (s : list ascii) : bool :=
  nullable r ||
  match s with
  | [] => false
  | c :: s' => match_prefix (deriv c r) s'
  end.

(** [re.match(pattern, string) is not None]; [None] when the pattern does
    not compile. *)
Definition re_match (pattern string : string) : option bool :=
  match compile pattern with
  | Some r => Some (match_prefix r (list_ascii_of_string string))
  | None => None
  end.

End Re.

(* ================================================================= *)
(** ** The [DICE] token *)

(** [python_dice/src/python_dice_syntax/dice_syntax.py] is not available;
    its pattern is the one pinned verbatim by [test_dice_get_token_regex]. *)
Module DiceSyntax.

Definition TOKEN_NAME : string := "DICE".

Definition TOKEN_REGEX : string :=
  "\d*d(\d+|%|F|\[(\s*(-?)\d+\s*,\s*)*(-?)\d+\s*(,?)\s*])".

Definition get_token_regex : string := TOKEN_REGEX.

(** The pattern [TOKEN_REGEX] as [Re.compile] reads it. [face_sep] is the
    repeated group of the face list: one face followed by its comma. *)
Definition D : Re.regex := Re.RClass Re.is_digit.
Definition W : Re.regex := Re.RClass Re.is_space.
Definition sign : Re.regex := Re.RCat (Re.ROpt (Re.RLit "-"%char)) Re.REps.

Definition face_sep : Re.regex :=
  Re.RCat (Re.RStar W) (Re.RCat sign (Re.RCat (Re.RPlus D)
    (Re.RCat (Re.RStar W) (Re.RCat (Re.RLit ","%char) (Re.RCat (Re.RStar W) Re.REps))))).

Definition face_list : Re.regex :=
  Re.RCat (Re.RLit "["%char) (Re.RCat (Re.RStar face_sep) (Re.RCat sign
    (Re.RCat (Re.RPlus D) (Re.RCat (Re.RStar W)
      (Re.RCat (Re.RCat (Re.ROpt (Re.RLit ","%char)) Re.REps)
        (Re.RCat (Re.RStar W) (Re.RCat (Re.RLit "]"%char) Re.REps))))))).

Definition dice_re : Re.regex :=
  Re.RCat (Re.RStar D) (Re.RCat (Re.RLit "d"%char) (Re.RCat
    (Re.RAlt (Re.RCat (Re.RPlus D) Re.REps)
      (Re.RAlt (Re.RCat (Re.RLit "%"%char) Re.REps)
        (Re.RAlt (Re.RCat (Re.RLit "F"%char) Re.REps) face_list)))
    Re.REps)).

(** No two adjacent commas. *)
Fixpoint no_double_comma (s : list ascii) : bool :=
  match s with
  | a :: ((b :: _) as t) =>
      negb (Ascii.eqb a ","%char && Ascii.eqb b ","%char) && no_double_comma t
  | _ => true
  end.

(** The first character is not a comma. *)
Definition no_leading_comma (s : list ascii) : bool :=
  match s with
  | c :: _ => negb (Ascii.eqb c ","%char)
  | [] => true
  end.

End DiceSyntax.

(* ================================================================= *)
(** * Properties *)

(* ----------------------------------------------------------------- *)
(** ** Constraints *)

Section ConstraintProperties.
Import Constraint.

(** C2: the impossible sentinel filters no variable binding
    ([complies] is always true) yet is never possible. *)
Theorem impossible_complies_not_possible (var_values : gmap string Z) :
  complies ImpossibleConstraint var_values = true /\
  is_possible ImpossibleConstraint = false.
Proof. split; reflexivity. Qed.

(** C3: merging two [VarValueConstraint]s on one name intersects their
    value sets through the factory: an empty intersection gives the factory's
    impossible constraint, otherwise the factory's [VarValueConstraint] for
    that name with exactly the intersection. *)
Theorem var_value_merge_same_name `{F : IConstraintFactory}
    (name : string) (S1 S2 : gset Z) :
  merge (VarValueConstraint name S1) (VarValueConstraint name S2) =
  inl (if bool_decide (S1 ∩ S2 = ∅) then impossible_constraint
       else var_value_constraint name (S1 ∩ S2)).
Proof.
  simpl. rewrite bool_decide_eq_true_2 by reflexivity.
  destruct (bool_decide (S1 ∩ S2 = ∅)) eqn:E.
  - apply bool_decide_eq_true_1 in E. rewrite E. reflexivity.
  - apply bool_decide_eq_false_1 in E.
    destruct (Nat.eqb (size (S1 ∩ S2)) 0) eqn:Hs; [|reflexivity].
    apply Nat.eqb_eq, size_empty_inv in Hs.
    exfalso. apply E. by apply leibniz_equiv.
Qed.

(** C4: a [VarValueConstraint] asked to merge with a constraint it cannot
    merge with raises [ValueError]. *)
Theorem var_value_merge_invalid `{F : IConstraintFactory}
    (name : string) (values : gset Z) (other : IConstraint) :
  can_merge (VarValueConstraint name values) other = false ->
  merge (VarValueConstraint name values) other = inr ValueError.
Proof.
  intros H. destruct other as [name' values' | | tag]; simpl in *; try reflexivity.
  rewrite H. reflexivity.
Qed.

(** C5: a [VarValueConstraint] complies with a mapping iff its variable is
    unbound there or bound to one of its values. *)
Theorem var_value_complies_iff (name : string) (values : gset Z)
    (var_values : gmap string Z) :
  complies (VarValueConstraint name values) var_values = true <->
  var_values !! name = None \/
  exists v, var_values !! name = Some v /\ v ∈ values.
Proof.
  simpl. destruct (var_values !! name) as [v|] eqn:E.
  - rewrite bool_decide_eq_true. split.
    + intros Hv. right. eauto.
    + intros [Hn | (v' & Hv' & Hin)]; [discriminate|]. by injection Hv' as ->.
  - split; auto.
Qed.

(** C7: the impossible sentinel merges with anything and absorbs it. *)
Theorem impossible_absorbing `{F : IConstraintFactory} (other : IConstraint) :
  can_merge ImpossibleConstraint other = true /\
  merge ImpossibleConstraint other = inl ImpossibleConstraint.
Proof. split; reflexivity. Qed.

(** C10: [can_merge] is not symmetric: the impossible sentinel accepts any
    [VarValueConstraint], which refuses the sentinel, since a
    [VarValueConstraint] only accepts a [VarValueConstraint] of its name. *)
Theorem can_merge_asymmetric (name : string) (values : gset Z) :
  can_merge ImpossibleConstraint (VarValueConstraint name values) = true /\
  can_merge (VarValueConstraint name values) ImpossibleConstraint = false /\
  (forall other, can_merge (VarValueConstraint name values) other = true <->
                 exists values', other = VarValueConstraint name values').
Proof.
  split; [reflexivity|]. split; [reflexivity|].
  intros [name' values' | | tag]; simpl.
  - rewrite bool_decide_eq_true. split.
    + intros <-. eauto.
    + intros [v' Hv]. by injection Hv as ->.
  - split; [discriminate|]. intros [? ?]; discriminate.
  - split; [discriminate|]. intros [? ?]; discriminate.
Qed.

End ConstraintProperties.

(* ----------------------------------------------------------------- *)
(** ** Probability distributions *)

Module ProbabilityDistributionFacts.
Import ProbabilityDistribution.

Lemma total_weight_add_weight k v (m : t) :
  total_weight (add_weight k v m) = (total_weight m + v)%N.
Proof.
  induction m as [|[k' v'] m IH]; simpl; [lia|].
  destruct (Z.eqb k k'); simpl; [lia|]. rewrite IH. lia.
Qed.

Lemma total_weight_inner a wa (d2 acc : t) :
  total_weight (fold_left (fun acc' '(b, wb) => add_weight (a + b) (wa * wb) acc') d2 acc)
  = (total_weight acc + wa * total_weight d2)%N.
Proof.
  revert acc. induction d2 as [|[b wb] d2 IH]; intros acc; simpl; [lia|].
  rewrite IH, total_weight_add_weight. lia.
Qed.

Lemma total_weight_outer (d1 d2 acc : t) :
  total_weight (fold_left (fun acc '(a, wa) =>
    fold_left (fun acc' '(b, wb) => add_weight (a + b) (wa * wb) acc') d2 acc) d1 acc)
  = (total_weight acc + total_weight d1 * total_weight d2)%N.
Proof.
  revert acc. induction d1 as [|[a wa] d1 IH]; intros acc; simpl; [lia|].
  rewrite IH, total_weight_inner. lia.
Qed.

Lemma has_outcome_nil k : ~ has_outcome [] k.
Proof. intros (w & [] & _). Qed.

Lemma has_outcome_cons k w (d : t) x :
  has_outcome ((k, w) :: d) x <-> (x = k /\ w <> 0%N) \/ has_outcome d x.
Proof.
  split.
  - intros (w' & [Heq | Hin] & Hw).
    + injection Heq as -> ->. auto.
    + right. exists w'. auto.
  - intros [[-> Hw] | (w' & Hin & Hw)].
    + exists w. split; [left|]; auto.
    + exists w'. split; [right|]; auto.
Qed.

Lemma has_outcome_add_weight k v (m : t) x :
  has_outcome (add_weight k v m) x <-> has_outcome m x \/ (x = k /\ v <> 0%N).
Proof.
  induction m as [|[k' v'] m IH]; simpl.
  - rewrite has_outcome_cons. pose proof (has_outcome_nil x). tauto.
  - destruct (Z.eqb k k') eqn:E.
    + apply Z.eqb_eq in E as <-.
      rewrite !has_outcome_cons. split.
      * intros [[-> Hw] | H]; [|auto].
        destruct (N.eq_dec v' 0%N); [right; split | left; left; split]; auto; lia.
      * intros [[[-> Hw] | H] | [-> Hv]]; [left; split; auto; lia | auto |].
        left. split; auto. lia.
    + apply Z.eqb_neq in E.
      rewrite !has_outcome_cons, IH. tauto.
Qed.

Lemma has_outcome_inner a wa (d2 acc : t) x :
  has_outcome (fold_left (fun acc' '(b, wb) => add_weight (a + b) (wa * wb) acc') d2 acc) x
  <-> has_outcome acc x \/ (wa <> 0%N /\ exists b, has_outcome d2 b /\ x = a + b).
Proof.
  revert acc. induction d2 as [|[b wb] d2 IH]; intros acc; simpl.
  - split; [auto|]. intros [H | (_ & b & Hb & _)]; [auto|].
    by apply has_outcome_nil in Hb.
  - rewrite IH, has_outcome_add_weight. split.
    + intros [[H | [-> Hw]] | (Hwa & b' & Hb' & ->)]; [auto | |].
      * right. split; [lia|]. exists b. split; [|reflexivity].
        apply has_outcome_cons. left. split; [reflexivity|lia].
      * right. split; [auto|]. exists b'. split; [|reflexivity].
        apply has_outcome_cons. auto.
    + intros [H | (Hwa & b' & Hb' & ->)]; [auto|].
      apply has_outcome_cons in Hb' as [[-> Hwb] | Hb'].
      * left. right. split; [reflexivity|lia].
      * right. split; [auto|]. eauto.
Qed.

Lemma has_outcome_outer (d1 d2 acc : t) x :
  has_outcome (fold_left (fun acc '(a, wa) =>
    fold_left (fun acc' '(b, wb) => add_weight (a + b) (wa * wb) acc') d2 acc) d1 acc) x
  <-> has_outcome acc x \/
      exists a b, has_outcome d1 a /\ has_outcome d2 b /\ x = a + b.
Proof.
  revert acc. induction d1 as [|[a wa] d1 IH]; intros acc; simpl.
  - split; [auto|]. intros [H | (a & b & Ha & _)]; [auto|].
    by apply has_outcome_nil in Ha.
  - rewrite IH, has_outcome_inner. split.
    + intros [[H | (Hwa & b & Hb & ->)] | (a' & b & Ha & Hb & ->)]; [auto | |].
      * right. exists a, b. rewrite has_outcome_cons. auto.
      * right. exists a', b. rewrite has_outcome_cons. auto.
    + intros [H | (a' & b & Ha & Hb & ->)]; [auto|].
      apply has_outcome_cons in Ha as [[-> Hwa] | Ha].
      * left. right. eauto.
      * right. eauto.
Qed.

(** The outcomes of a sum are the sums of the outcomes. *)
Lemma has_outcome_add (d1 d2 : t) x :
  has_outcome (add d1 d2) x <->
  exists a b, has_outcome d1 a /\ has_outcome d2 b /\ x = a + b.
Proof.
  unfold add. rewrite has_outcome_outer.
  pose proof (has_outcome_nil x). tauto.
Qed.

(** [min] is the least outcome, [max] the greatest. *)
Lemma min_spec (d : t) :
  (forall m, min d = Some m <->
             has_outcome d m /\ forall k, has_outcome d k -> m <= k) /\
  (min d = None <-> forall k, ~ has_outcome d k).
Proof.
  induction d as [|[k w] d [IHs IHn]]; simpl.
  - split.
    + intros m. split; [discriminate|]. intros [H _]. by apply has_outcome_nil in H.
    + split; [intros _ k H; by apply has_outcome_nil in H | reflexivity].
  - destruct (N.eqb w 0) eqn:Ew.
    + apply N.eqb_eq in Ew as ->.
      assert (Hc : forall x, has_outcome ((k, 0%N) :: d) x <-> has_outcome d x).
      { intros x. rewrite has_outcome_cons. split; [intros [[_ []] | H]|]; auto. }
      split; [intros m | ]; setoid_rewrite Hc; auto.
    + apply N.eqb_neq in Ew.
      destruct (min d) as [m0|] eqn:Em.
      * destruct (proj1 (IHs m0) eq_refl) as [Hm0 Hlow].
        split; [intros m|].
        -- setoid_rewrite has_outcome_cons. split.
           ++ intros Hm. injection Hm as <-. split.
              ** destruct (Z.min_spec k m0) as [[_ ->] | [_ ->]]; auto.
              ** intros x [[-> _] | Hx]; [lia|]. specialize (Hlow x Hx). lia.
           ++ intros [Hm Hl]. f_equal.
              assert (m <= k) by (apply Hl; auto).
              assert (m <= m0) by (apply Hl; auto).
              destruct Hm as [[-> _] | Hm]; [lia|]. specialize (Hlow m Hm). lia.
        -- split; [discriminate|]. intros H. exfalso. apply (H k).
           apply has_outcome_cons. auto.
      * split; [intros m|].
        -- setoid_rewrite has_outcome_cons. split.
           ++ intros Hm. injection Hm as <-. split; [auto|].
              intros x [[-> _] | Hx]; [lia|]. exfalso. by apply (proj1 IHn eq_refl x).
           ++ intros [[[-> _] | Hm] _]; [reflexivity|].
              exfalso. by apply (proj1 IHn eq_refl m).
        -- split; [discriminate|]. intros H. exfalso. apply (H k).
           apply has_outcome_cons. auto.
Qed.

Lemma max_spec (d : t) :
  (forall m, max d = Some m <->
             has_outcome d m /\ forall k, has_outcome d k -> k <= m) /\
  (max d = None <-> forall k, ~ has_outcome d k).
Proof.
  induction d as [|[k w] d [IHs IHn]]; simpl.
  - split.
    + intros m. split; [discriminate|]. intros [H _]. by apply has_outcome_nil in H.
    + split; [intros _ k H; by apply has_outcome_nil in H | reflexivity].
  - destruct (N.eqb w 0) eqn:Ew.
    + apply N.eqb_eq in Ew as ->.
      assert (Hc : forall x, has_outcome ((k, 0%N) :: d) x <-> has_outcome d x).
      { intros x. rewrite has_outcome_cons. split; [intros [[_ []] | H]|]; auto. }
      split; [intros m | ]; setoid_rewrite Hc; auto.
    + apply N.eqb_neq in Ew.
      destruct (max d) as [m0|] eqn:Em.
      * destruct (proj1 (IHs m0) eq_refl) as [Hm0 Hup].
        split; [intros m|].
        -- setoid_rewrite has_outcome_cons. split.
           ++ intros Hm. injection Hm as <-. split.
              ** destruct (Z.max_spec k m0) as [[_ ->] | [_ ->]]; auto.
              ** intros x [[-> _] | Hx]; [lia|]. specialize (Hup x Hx). lia.
           ++ intros [Hm Hl]. f_equal.
              assert (k <= m) by (apply Hl; auto).
              assert (m0 <= m) by (apply Hl; auto).
              destruct Hm as [[-> _] | Hm]; [lia|]. specialize (Hup m Hm). lia.
        -- split; [discriminate|]. intros H. exfalso. apply (H k).
           apply has_outcome_cons. auto.
      * split; [intros m|].
        -- setoid_rewrite has_outcome_cons. split.
           ++ intros Hm. injection Hm as <-. split; [auto|].
              intros x [[-> _] | Hx]; [lia|]. exfalso. by apply (proj1 IHn eq_refl x).
           ++ intros [[[-> _] | Hm] _]; [reflexivity|].
              exfalso. by apply (proj1 IHn eq_refl m).
        -- split; [discriminate|]. intros H. exfalso. apply (H k).
           apply has_outcome_cons. auto.
Qed.

Lemma min_add (d1 d2 : t) m1 m2 :
  min d1 = Some m1 -> min d2 = Some m2 -> min (add d1 d2) = Some (m1 + m2).
Proof.
  intros H1 H2.
  apply (proj1 (min_spec d1)) in H1 as [Hm1 Hl1].
  apply (proj1 (min_spec d2)) in H2 as [Hm2 Hl2].
  apply (proj1 (min_spec _)). setoid_rewrite has_outcome_add. split.
  - eauto.
  - intros x (a & b & Ha & Hb & ->). specialize (Hl1 a Ha). specialize (Hl2 b Hb). lia.
Qed.

Lemma max_add (d1 d2 : t) m1 m2 :
  max d1 = Some m1 -> max d2 = Some m2 -> max (add d1 d2) = Some (m1 + m2).
Proof.
  intros H1 H2.
  apply (proj1 (max_spec d1)) in H1 as [Hm1 Hl1].
  apply (proj1 (max_spec d2)) in H2 as [Hm2 Hl2].
  apply (proj1 (max_spec _)). setoid_rewrite has_outcome_add. split.
  - eauto.
  - intros x (a & b & Ha & Hb & ->). specialize (Hl1 a Ha). specialize (Hl2 b Hb). lia.
Qed.

End ProbabilityDistributionFacts.

(** C6: the sum of two distributions has the product of their total
    weights as its total weight (conservation of mass). *)
Theorem add_total_weight (d1 d2 : ProbabilityDistribution.t) :
  ProbabilityDistribution.total_weight (ProbabilityDistribution.add d1 d2) =
  (ProbabilityDistribution.total_weight d1 * ProbabilityDistribution.total_weight d2)%N.
Proof.
  unfold ProbabilityDistribution.add.
  rewrite ProbabilityDistributionFacts.total_weight_outer. simpl. lia.
Qed.

(** C1: the bounds of an addition node are the sums of the bounds of its
    children, both for [Add] of [pydice_syntax], which adds the children's
    [min()]/[max()], and for [AddExpression] of [python_dice_expression],
    which takes them from the distribution of the sum, provided the
    children have bounds (their distributions have an outcome). *)
Theorem add_bounds (s1 s2 : PydiceSyntax.IDiceSyntax)
    (e1 e2 : PythonDiceExpression.IDiceExpression) (lo1 hi1 lo2 hi2 : Z) :
  PythonDiceExpression.min e1 = Some lo1 -> PythonDiceExpression.max e1 = Some hi1 ->
  PythonDiceExpression.min e2 = Some lo2 -> PythonDiceExpression.max e2 = Some hi2 ->
  (PydiceSyntax.min (PydiceSyntax.Add s1 s2) = PydiceSyntax.min s1 + PydiceSyntax.min s2 /\
   PydiceSyntax.max (PydiceSyntax.Add s1 s2) = PydiceSyntax.max s1 + PydiceSyntax.max s2) /\
  (PythonDiceExpression.min (PythonDiceExpression.AddExpression e1 e2) = Some (lo1 + lo2) /\
   PythonDiceExpression.max (PythonDiceExpression.AddExpression e1 e2) = Some (hi1 + hi2)).
Proof.
  unfold PythonDiceExpression.min, PythonDiceExpression.max. simpl.
  intros Hl1 Hh1 Hl2 Hh2. split; [split; reflexivity|]. split.
  - by apply ProbabilityDistributionFacts.min_add.
  - by apply ProbabilityDistributionFacts.max_add.
Qed.

(** C1 at [2d6 + 3] ([2d6] as a leaf with its distribution). *)
Lemma add_bounds_witness :
  let two_d6 := PythonDiceExpression.LeafExpression
        (ProbabilityDistribution.add (ProbabilityDistribution.from_uniform_die 6)
                                     (ProbabilityDistribution.from_uniform_die 6)) in
  let three := PythonDiceExpression.LeafExpression (ProbabilityDistribution.from_constant 3) in
  PythonDiceExpression.min (PythonDiceExpression.AddExpression two_d6 three) = Some 5 /\
  PythonDiceExpression.max (PythonDiceExpression.AddExpression two_d6 three) = Some 15.
Proof.
  intros two_d6 three.
  exact (proj2 (add_bounds (PydiceSyntax.Leaf 2 12) (PydiceSyntax.Leaf 3 3)
                  two_d6 three 2 12 3 3 eq_refl eq_refl eq_refl eq_refl)).
Defined.

(* ----------------------------------------------------------------- *)
(** ** The matcher *)

Module ReFacts.
Import Re.

Lemma nullable_sound r : nullable r = true -> in_re r [].
Proof.
  induction r; simpl; intros H; try discriminate.
  - constructor.
  - apply andb_prop in H as [H1 H2]. apply (in_cat _ _ [] []); auto.
  - apply orb_prop in H as [H | H]; [apply in_alt_l | apply in_alt_r]; auto.
  - constructor.
Qed.

Lemma nullable_complete r s : in_re r s -> s = [] -> nullable r = true.
Proof.
  induction 1; intros Hs; simpl; try discriminate; auto.
  - apply app_eq_nil in Hs as [-> ->]. rewrite IHin_re1, IHin_re2; auto.
  - rewrite IHin_re; auto.
  - rewrite IHin_re, orb_true_r; auto.
Qed.

Lemma deriv_sound c r s : in_re (deriv c r) s -> in_re r (c :: s).
Proof.
  revert s. induction r; simpl; intros s H.
  - inversion H.
  - inversion H.
  - destruct (p c) eqn:E; inversion H; subst. by constructor.
  - destruct (nullable r1) eqn:N.
    + inversion H; subst.
      * inversion H3; subst. change (c :: s1 ++ s2) with ((c :: s1) ++ s2).
        constructor; auto.
      * change (c :: s) with ([] ++ c :: s).
        constructor; [by apply nullable_sound | auto].
    + inversion H; subst. change (c :: s1 ++ s2) with ((c :: s1) ++ s2).
      constructor; auto.
  - inversion H; subst; [apply in_alt_l | apply in_alt_r]; auto.
  - inversion H; subst. change (c :: s1 ++ s2) with ((c :: s1) ++ s2).
    constructor; auto.
Qed.

Lemma deriv_complete c r s : in_re r (c :: s) -> in_re (deriv c r) s.
Proof.
  remember (c :: s) as l eqn:Hl. intros H. revert c s Hl.
  induction H; intros c0 s0 Hl; simpl.
  - discriminate.
  - injection Hl as -> <-. rewrite H. constructor.
  - destruct s1 as [|c1 s1].
    + simpl in Hl. subst s2.
      rewrite (nullable_complete _ _ H eq_refl). apply in_alt_r. auto.
    + injection Hl as -> <-.
      destruct (nullable r1); [apply in_alt_l|]; constructor; auto.
  - apply in_alt_l. auto.
  - apply in_alt_r. auto.
  - discriminate.
  - destruct s1 as [|c1 s1].
    + simpl in Hl. exact (IHin_re2 _ _ Hl).
    + injection Hl as -> <-. constructor; auto.
Qed.

Lemma match_prefix_correct r s : match_prefix r s = true <-> matches_prefix r s.
Proof.
  revert r. induction s as [|c s IH]; intros r; simpl.
  - rewrite orb_false_r. split.
    + intros H. exists [], []. split; [reflexivity|]. by apply nullable_sound.
    + intros (p & q & Hpq & Hp). symmetry in Hpq.
      apply app_eq_nil in Hpq as [-> ->]. by apply (nullable_complete _ _ Hp).
  - split.
    + intros [H | H]%orb_prop.
      * exists [], (c :: s). split; [reflexivity|]. by apply nullable_sound.
      * apply IH in H as (p & q & -> & Hp).
        exists (c :: p), q. split; [reflexivity|]. by apply deriv_sound.
    + intros (p & q & Hpq & Hp). destruct p as [|c' p].
      * by rewrite (nullable_complete _ _ Hp eq_refl).
      * injection Hpq as -> ->. apply orb_true_intro. right.
        apply IH. exists p, q. split; [reflexivity|]. by apply deriv_complete.
Qed.

End ReFacts.

Lemma compile_token_regex : Re.compile DiceSyntax.TOKEN_REGEX = Some DiceSyntax.dice_re.
Proof. vm_compute. reflexivity. Qed.

Module DiceTokenFacts.
Import Re.

Lemma re_match_token s :
  re_match DiceSyntax.TOKEN_REGEX s = Some true <->
  matches_prefix DiceSyntax.dice_re (list_ascii_of_string s).
Proof.
  unfold re_match. rewrite compile_token_regex.
  rewrite <- ReFacts.match_prefix_correct. split; [congruence | intros ->; reflexivity].
Qed.

Lemma in_cat_app r1 r2 s1 s2 s :
  s = s1 ++ s2 -> in_re r1 s1 -> in_re r2 s2 -> in_re (RCat r1 r2) s.
Proof. intros ->. apply in_cat. Qed.

Lemma in_cat_eps r s : in_re r s -> in_re (RCat r REps) s.
Proof. intros H. apply (in_cat_app _ _ s []); [by rewrite app_nil_r | auto | constructor]. Qed.

Lemma in_star_class p (l : list ascii) :
  Forall (fun c => p c = true) l -> in_re (RStar (RClass p)) l.
Proof.
  induction 1 as [|c l Hc Hl IH]; [constructor|].
  apply (in_star_cons _ [c] l); [constructor|]; auto.
Qed.

Lemma in_plus_class p (c : ascii) (l : list ascii) :
  p c = true -> Forall (fun c => p c = true) l -> in_re (RPlus (RClass p)) (c :: l).
Proof.
  intros Hc Hl. apply (in_cat_app _ _ [c] l); [reflexivity | by constructor |].
  by apply in_star_class.
Qed.

End DiceTokenFacts.

(** C8 (as the code has it): every [NdM] with [N] an optional digit string
    and [M] a non-empty digit string is a [DICE] token, including [M = 0]:
    the pattern reads the side count with [\d+]. *)
Theorem dice_token_standard_form (n : list ascii) (m0 : ascii) (m : list ascii) :
  Forall (fun c => Re.is_digit c = true) n ->
  Forall (fun c => Re.is_digit c = true) (m0 :: m) ->
  Re.re_match DiceSyntax.TOKEN_REGEX (string_of_list_ascii (n ++ "d"%char :: m0 :: m))
  = Some true.
Proof.
  intros Hn Hm. apply DiceTokenFacts.re_match_token.
  rewrite list_ascii_of_string_of_list_ascii.
  exists (n ++ "d"%char :: m0 :: m), []. split; [by rewrite app_nil_r|].
  inversion Hm as [|? ? Hm0 Hm']; subst.
  apply (DiceTokenFacts.in_cat_app _ _ n ("d"%char :: m0 :: m)); [reflexivity| |].
  - by apply DiceTokenFacts.in_star_class.
  - apply (DiceTokenFacts.in_cat_app _ _ ["d"%char] (m0 :: m)); [reflexivity| |].
    + constructor. reflexivity.
    + apply DiceTokenFacts.in_cat_eps. apply Re.in_alt_l.
      apply DiceTokenFacts.in_cat_eps. by apply DiceTokenFacts.in_plus_class.
Qed.

Lemma dice_token_standard_form_witness :
  Forall (fun c => Re.is_digit c = true) ["1"%char; "0"%char; "0"%char] /\
  Forall (fun c => Re.is_digit c = true) ["0"%char] /\
  Re.re_match DiceSyntax.TOKEN_REGEX "100d0" = Some true.
Proof.
  split; [repeat constructor|]. split; [repeat constructor|].
  exact (dice_token_standard_form ["1"%char; "0"%char; "0"%char] "0"%char []
           ltac:(repeat constructor) ltac:(repeat constructor)).
Defined.

(** C8 refuted: [1d0], whose side count is not positive, is a [DICE]
    token. *)
Lemma dice_token_zero_sides : Re.re_match DiceSyntax.TOKEN_REGEX "1d0" = Some true.
Proof. vm_compute. reflexivity. Qed.

(** C9: the face-list form rejects an empty list ([5d[]]) and a doubled
    comma, and accepts trailing commas, negative and repeated faces and
    whitespace around the faces of a list of two or more; but with a
    single face, whitespace between [[] and the face is rejected ([d[ 1]]),
    while the same whitespace is accepted before the first of two faces. *)
Theorem dice_token_single_face_whitespace :
  Re.re_match DiceSyntax.TOKEN_REGEX "d[ 1]" = Some false /\
  Re.re_match DiceSyntax.TOKEN_REGEX "d[ 1,]" = Some false /\
  Re.re_match DiceSyntax.TOKEN_REGEX "d[ 1,2]" = Some true /\
  Re.re_match DiceSyntax.TOKEN_REGEX "d[1 ]" = Some true /\
  Re.re_match DiceSyntax.TOKEN_REGEX "d[ -1 , 1 , ]" = Some true /\
  Re.re_match DiceSyntax.TOKEN_REGEX "5d[]" = Some false /\
  Re.re_match DiceSyntax.TOKEN_REGEX "d[1,,2]" = Some false.
Proof. vm_compute. repeat split. Qed.

(** C4 at a constraint that is not a [VarValueConstraint]. *)
Lemma var_value_merge_invalid_witness :
  Constraint.can_merge (Constraint.VarValueConstraint "mock" {[1; 2; 3]})
                       (Constraint.OtherConstraint 0) = false /\
  Constraint.merge (F := Constraint.ConstraintFactory)
    (Constraint.VarValueConstraint "mock" {[1; 2; 3]}) (Constraint.OtherConstraint 0)
  = inr Constraint.ValueError.
Proof.
  split; [reflexivity|].
  apply var_value_merge_invalid. reflexivity.
Defined.

(* ----------------------------------------------------------------- *)
(** ** Rolling, displaying and regrouping additions *)

Module AddFacts.
Import ProbabilityDistribution ProbabilityDistributionFacts.

Lemma min_ext (d d' : t) :
  (forall x, has_outcome d x <-> has_outcome d' x) -> min d = min d'.
Proof.
  intros H. destruct (min d) as [m|] eqn:E.
  - apply (proj1 (proj1 (min_spec d) m)) in E as [Hm Hl].
    symmetry. apply (proj2 (proj1 (min_spec d') m)). split; [by apply H|].
    intros k Hk. apply Hl, H, Hk.
  - pose proof (proj1 (proj2 (min_spec d)) E) as E'.
    symmetry. apply (proj2 (proj2 (min_spec d'))). intros k Hk. exact (E' k (proj2 (H k) Hk)).
Qed.

Lemma max_ext (d d' : t) :
  (forall x, has_outcome d x <-> has_outcome d' x) -> max d = max d'.
Proof.
  intros H. destruct (max d) as [m|] eqn:E.
  - apply (proj1 (proj1 (max_spec d) m)) in E as [Hm Hl].
    symmetry. apply (proj2 (proj1 (max_spec d') m)). split; [by apply H|].
    intros k Hk. apply Hl, H, Hk.
  - pose proof (proj1 (proj2 (max_spec d)) E) as E'.
    symmetry. apply (proj2 (proj2 (max_spec d'))). intros k Hk. exact (E' k (proj2 (H k) Hk)).
Qed.

Lemma has_outcome_add_comm (d1 d2 : t) x :
  has_outcome (add d1 d2) x <-> has_outcome (add d2 d1) x.
Proof.
  rewrite !has_outcome_add.
  split; intros (a & b & Ha & Hb & ->); exists b, a; repeat split; auto; lia.
Qed.

Lemma has_outcome_add_assoc (d1 d2 d3 : t) x :
  has_outcome (add (add d1 d2) d3) x <-> has_outcome (add d1 (add d2 d3)) x.
Proof.
  rewrite !has_outcome_add. setoid_rewrite has_outcome_add. split.
  - intros (ab & c & (a & b & Ha & Hb & ->) & Hc & ->).
    exists a, (b + c). repeat split; auto; [exists b, c; auto | lia].
  - intros (a & bc & Ha & (b & c & Hb & Hc & ->) & ->).
    exists (a + b), c. repeat split; auto; [exists a, b; auto | lia].
Qed.

Lemma has_outcome_of_min (d : t) m : min d = Some m -> exists k, has_outcome d k.
Proof. intros H. apply (proj1 (min_spec d)) in H as [H _]. eauto. Qed.

Lemma min_None_iff_max_None (d : t) : min d = None <-> max d = None.
Proof. rewrite (proj2 (min_spec d)), (proj2 (max_spec d)). reflexivity. Qed.

Lemma string_append_assoc (a b c : string) :
  String.append (String.append a b) c = String.append a (String.append b c).
Proof. induction a as [|x a IH]; [reflexivity|]. exact (f_equal (String x) IH). Qed.

End AddFacts.

(** [Add.roll] of [pydice_syntax] stays within [Add.min] and [Add.max]
    whenever every leaf rolls within its own bounds: the bounds computed
    from the children's bounds enclose every roll. *)
Theorem syntax_roll_within_bounds {R : Type} (leaf_roll : Z -> Z -> R -> Z * R)
    (Hleaf : forall lo hi r, lo <= hi -> lo <= fst (leaf_roll lo hi r) <= hi)
    (e : PydiceSyntax.IDiceSyntax) (r : R) :
  PydiceSyntax.leaves_ordered e ->
  PydiceSyntax.min e <= fst (PydiceSyntax.roll leaf_roll e r) <= PydiceSyntax.max e.
Proof.
  revert r. induction e as [lo hi | e1 IH1 e2 IH2]; intros r He; simpl in *.
  - by apply Hleaf.
  - destruct He as [He1 He2].
    specialize (IH1 r He1).
    destruct (PydiceSyntax.roll leaf_roll e1 r) as [v1 r1]; simpl in IH1.
    specialize (IH2 r1 He2).
    destruct (PydiceSyntax.roll leaf_roll e2 r1) as [v2 r2]; simpl in *. lia.
Qed.

Lemma syntax_roll_within_bounds_witness :
  PydiceSyntax.leaves_ordered (PydiceSyntax.Add (PydiceSyntax.Leaf 1 6) (PydiceSyntax.Leaf 1 6)) /\
  PydiceSyntax.min (PydiceSyntax.Add (PydiceSyntax.Leaf 1 6) (PydiceSyntax.Leaf 1 6)) <=
  fst (PydiceSyntax.roll (fun lo hi (r : Z) => (Z.max lo (Z.min hi r), r + 5))
         (PydiceSyntax.Add (PydiceSyntax.Leaf 1 6) (PydiceSyntax.Leaf 1 6)) 4) <=
  PydiceSyntax.max (PydiceSyntax.Add (PydiceSyntax.Leaf 1 6) (PydiceSyntax.Leaf 1 6)).
Proof.
  split; [simpl; lia|].
  apply (syntax_roll_within_bounds (fun lo hi (r : Z) => (Z.max lo (Z.min hi r), r + 5))
           ltac:(intros; simpl; lia)).
  simpl; lia.
Defined.

(** The rolled value of an [AddExpression] tree is an outcome of non-zero
    weight of its [get_probability_distribution], whenever every leaf rolls
    one of its own outcomes and every leaf has one. *)
Theorem expression_roll_is_outcome {R : Type} (leaf_roll : ProbabilityDistribution.t -> R -> Z * R)
    (Hleaf : forall d r, (exists k, ProbabilityDistribution.has_outcome d k) ->
             ProbabilityDistribution.has_outcome d (fst (leaf_roll d r)))
    (e : PythonDiceExpression.IDiceExpression) (r : R) :
  PythonDiceExpression.leaves_nonempty e ->
  ProbabilityDistribution.has_outcome (PythonDiceExpression.get_probability_distribution e)
    (fst (PythonDiceExpression.roll leaf_roll e r)).
Proof.
  revert r. induction e as [d | e1 IH1 e2 IH2]; intros r He; simpl in *.
  - by apply Hleaf.
  - destruct He as [He1 He2].
    specialize (IH1 r He1).
    destruct (PythonDiceExpression.roll leaf_roll e1 r) as [v1 r1]; simpl in IH1.
    specialize (IH2 r1 He2).
    destruct (PythonDiceExpression.roll leaf_roll e2 r1) as [v2 r2]; simpl in *.
    apply ProbabilityDistributionFacts.has_outcome_add. eauto.
Qed.

Lemma min_leaf_roll_outcome (d : ProbabilityDistribution.t) (r : nat) :
  (exists k, ProbabilityDistribution.has_outcome d k) ->
  ProbabilityDistribution.has_outcome d
    (fst ((fun d (r : nat) => (match ProbabilityDistribution.min d with
                               | Some m => m | None => 0 end, r)) d r)).
Proof.
  intros [k Hk]. simpl.
  destruct (ProbabilityDistribution.min d) as [m|] eqn:E.
  - exact (proj1 (proj1 (proj1 (ProbabilityDistributionFacts.min_spec d) m) E)).
  - exfalso. exact (proj1 (proj2 (ProbabilityDistributionFacts.min_spec d)) E k Hk).
Qed.

Lemma expression_roll_is_outcome_witness :
  PythonDiceExpression.leaves_nonempty
    (PythonDiceExpression.AddExpression
       (PythonDiceExpression.LeafExpression (ProbabilityDistribution.from_uniform_die 6))
       (PythonDiceExpression.LeafExpression (ProbabilityDistribution.from_constant 3))) /\
  ProbabilityDistribution.has_outcome
    (PythonDiceExpression.get_probability_distribution
       (PythonDiceExpression.AddExpression
          (PythonDiceExpression.LeafExpression (ProbabilityDistribution.from_uniform_die 6))
          (PythonDiceExpression.LeafExpression (ProbabilityDistribution.from_constant 3))))
    (fst (PythonDiceExpression.roll
            (fun d (r : nat) => (match ProbabilityDistribution.min d with
                                 | Some m => m | None => 0 end, r))
            (PythonDiceExpression.AddExpression
               (PythonDiceExpression.LeafExpression (ProbabilityDistribution.from_uniform_die 6))
               (PythonDiceExpression.LeafExpression (ProbabilityDistribution.from_constant 3)))
            0%nat)).
Proof.
  assert (H : PythonDiceExpression.leaves_nonempty
    (PythonDiceExpression.AddExpression
       (PythonDiceExpression.LeafExpression (ProbabilityDistribution.from_uniform_die 6))
       (PythonDiceExpression.LeafExpression (ProbabilityDistribution.from_constant 3)))).
  { split; [exists 1, 1%N | exists 3, 1%N]; split; try (simpl; tauto); lia. }
  split; [exact H|].
  exact (expression_roll_is_outcome _ min_leaf_roll_outcome _ 0%nat H).
Defined.

(** An [AddExpression] has no bounds ([min()]/[max()] of an empty
    distribution raise) exactly when one of its children has none. *)
Theorem expression_add_bounds_undefined (e1 e2 : PythonDiceExpression.IDiceExpression) :
  (PythonDiceExpression.min (PythonDiceExpression.AddExpression e1 e2) = None <->
   PythonDiceExpression.min e1 = None \/ PythonDiceExpression.min e2 = None) /\
  (PythonDiceExpression.max (PythonDiceExpression.AddExpression e1 e2) = None <->
   PythonDiceExpression.max e1 = None \/ PythonDiceExpression.max e2 = None).
Proof.
  unfold PythonDiceExpression.min, PythonDiceExpression.max. simpl.
  rewrite <- !AddFacts.min_None_iff_max_None.
  assert (H : forall d1 d2 : ProbabilityDistribution.t,
    ProbabilityDistribution.min (ProbabilityDistribution.add d1 d2) = None <->
    ProbabilityDistribution.min d1 = None \/ ProbabilityDistribution.min d2 = None).
  { intros d1 d2. rewrite !(proj2 (ProbabilityDistributionFacts.min_spec _)).
    setoid_rewrite ProbabilityDistributionFacts.has_outcome_add. split.
    - intros H.
      destruct (ProbabilityDistribution.min d1) as [m1|] eqn:E1; [|left; intros k Hk;
        exact (proj1 (proj2 (ProbabilityDistributionFacts.min_spec d1)) E1 k Hk)].
      destruct (ProbabilityDistribution.min d2) as [m2|] eqn:E2; [|right; intros k Hk;
        exact (proj1 (proj2 (ProbabilityDistributionFacts.min_spec d2)) E2 k Hk)].
      exfalso. apply (H (m1 + m2)).
      apply (proj1 (ProbabilityDistributionFacts.min_spec d1)) in E1 as [Hm1 _].
      apply (proj1 (ProbabilityDistributionFacts.min_spec d2)) in E2 as [Hm2 _].
      eauto.
    - intros [H | H] k (a & b & Ha & Hb & _); [by apply (H a) | by apply (H b)]. }
  split; apply H.
Qed.

(** The bounds of an [AddExpression] do not depend on the order of its
    children. *)
Theorem expression_add_bounds_comm (e1 e2 : PythonDiceExpression.IDiceExpression) :
  PythonDiceExpression.min (PythonDiceExpression.AddExpression e1 e2) =
  PythonDiceExpression.min (PythonDiceExpression.AddExpression e2 e1) /\
  PythonDiceExpression.max (PythonDiceExpression.AddExpression e1 e2) =
  PythonDiceExpression.max (PythonDiceExpression.AddExpression e2 e1).
Proof.
  unfold PythonDiceExpression.min, PythonDiceExpression.max. simpl.
  split; [apply AddFacts.min_ext | apply AddFacts.max_ext];
    intros x; apply AddFacts.has_outcome_add_comm.
Qed.

(** [__str__] writes no parentheses: [(a + b) + c] and [a + (b + c)] are
    displayed alike, for both kinds of addition node, and they have the
    same bounds. *)
Theorem add_str_regroup
    (leaf_str : Z -> Z -> string) (a b c : PydiceSyntax.IDiceSyntax)
    (leaf_str' : ProbabilityDistribution.t -> string)
    (x y z : PythonDiceExpression.IDiceExpression) :
  (PydiceSyntax.to_str leaf_str (PydiceSyntax.Add (PydiceSyntax.Add a b) c) =
   PydiceSyntax.to_str leaf_str (PydiceSyntax.Add a (PydiceSyntax.Add b c)) /\
   PydiceSyntax.min (PydiceSyntax.Add (PydiceSyntax.Add a b) c) =
   PydiceSyntax.min (PydiceSyntax.Add a (PydiceSyntax.Add b c)) /\
   PydiceSyntax.max (PydiceSyntax.Add (PydiceSyntax.Add a b) c) =
   PydiceSyntax.max (PydiceSyntax.Add a (PydiceSyntax.Add b c))) /\
  (PythonDiceExpression.to_str leaf_str'
     (PythonDiceExpression.AddExpression (PythonDiceExpression.AddExpression x y) z) =
   PythonDiceExpression.to_str leaf_str'
     (PythonDiceExpression.AddExpression x (PythonDiceExpression.AddExpression y z)) /\
   PythonDiceExpression.min
     (PythonDiceExpression.AddExpression (PythonDiceExpression.AddExpression x y) z) =
   PythonDiceExpression.min
     (PythonDiceExpression.AddExpression x (PythonDiceExpression.AddExpression y z)) /\
   PythonDiceExpression.max
     (PythonDiceExpression.AddExpression (PythonDiceExpression.AddExpression x y) z) =
   PythonDiceExpression.max
     (PythonDiceExpression.AddExpression x (PythonDiceExpression.AddExpression y z))).
Proof.
  split; simpl.
  - rewrite !AddFacts.string_append_assoc. repeat split; lia.
  - rewrite !AddFacts.string_append_assoc. split; [reflexivity|].
    unfold PythonDiceExpression.min, PythonDiceExpression.max. simpl.
    split; [apply AddFacts.min_ext | apply AddFacts.max_ext];
      intros w; apply AddFacts.has_outcome_add_assoc.
Qed.

(** The total weight of the distribution of an addition tree is the
    product of the total weights of its leaves. *)
Theorem expression_total_weight (e : PythonDiceExpression.IDiceExpression) :
  ProbabilityDistribution.total_weight (PythonDiceExpression.get_probability_distribution e) =
  PythonDiceExpression.leaf_weight_product e.
Proof.
  induction e as [d | e1 IH1 e2 IH2]; simpl; [reflexivity|].
  unfold ProbabilityDistribution.add.
  rewrite ProbabilityDistributionFacts.total_weight_outer, IH1, IH2. simpl. lia.
Qed.

(* ----------------------------------------------------------------- *)
(** ** The language of the [DICE] pattern *)

Module DiceTokenLanguage.
Import Re DiceSyntax.

Lemma cat_inv r1 r2 s :
  in_re (RCat r1 r2) s -> exists s1 s2, s = s1 ++ s2 /\ in_re r1 s1 /\ in_re r2 s2.
Proof. intros H. inversion H; subst. eauto. Qed.

Lemma alt_inv r1 r2 s : in_re (RAlt r1 r2) s -> in_re r1 s \/ in_re r2 s.
Proof. intros H. inversion H; subst; auto. Qed.

Lemma class_inv p s : in_re (RClass p) s -> exists c, s = [c] /\ p c = true.
Proof. intros H. inversion H; subst. eauto. Qed.

Lemma eps_inv s : in_re REps s -> s = [].
Proof. intros H. by inversion H. Qed.

Lemma star_inv (P : list ascii -> Prop) r :
  (forall s, in_re r s -> P s) -> P [] -> (forall a b, P a -> P b -> P (a ++ b)) ->
  forall s, in_re (RStar r) s -> P s.
Proof.
  intros Hr Hnil Happ s H. remember (RStar r) as rs eqn:E.
  induction H; try discriminate; injection E as ->; auto.
Qed.

Lemma star_class_inv p s :
  in_re (RStar (RClass p)) s -> Forall (fun c => p c = true) s.
Proof.
  apply star_inv; [| constructor | intros; by apply Forall_app].
  intros s' (c & -> & Hc)%class_inv. by constructor.
Qed.

Ltac inv_re :=
  repeat match goal with
  | H : in_re (RCat _ _) _ |- _ => apply cat_inv in H as (? & ? & -> & ? & ?)
  | H : in_re (RAlt _ _) _ |- _ => apply alt_inv in H as [? | ?]
  | H : in_re (RClass _) _ |- _ => apply class_inv in H as (? & -> & ?)
  | H : in_re REps _ |- _ => apply eps_inv in H as ->
  | H : in_re (RStar (RClass _)) _ |- _ => apply star_class_inv in H
  end.

Lemma digit_not_space c : is_digit c = true -> is_space c = false.
Proof.
  unfold is_digit, is_space. intros H.
  apply andb_prop in H as [H1 H2]. apply Nat.leb_le in H1, H2.
  destruct (Nat.leb 9 (nat_of_ascii c)) eqn:E1, (Nat.leb (nat_of_ascii c) 13) eqn:E2,
    (Nat.leb 28 (nat_of_ascii c)) eqn:E3, (Nat.leb (nat_of_ascii c) 32) eqn:E4;
    simpl; try reflexivity;
    repeat match goal with H : Nat.leb _ _ = true |- _ => apply Nat.leb_le in H end; lia.
Qed.

Lemma digit_neq c d : is_digit c = true -> is_digit d = false -> c <> d.
Proof. intros Hc Hd ->. congruence. Qed.

Lemma space_neq c d : is_space c = true -> is_space d = false -> c <> d.
Proof. intros Hc Hd ->. congruence. Qed.

Lemma lit_eq c d : Ascii.eqb c d = true -> d = c.
Proof. intros H. by apply Ascii.eqb_eq in H. Qed.

(** Adjacent commas. *)
Lemma no_double_comma_no_comma s :
  Forall (fun c => c <> ","%char) s -> no_double_comma s = true.
Proof.
  induction 1 as [|x s Hx Hs IH]; [reflexivity|].
  destruct s as [|y s]; [reflexivity|].
  change (negb (Ascii.eqb x ","%char && Ascii.eqb y ","%char) && no_double_comma (y :: s) = true).
  rewrite IH. destruct (Ascii.eqb_spec x ","%char); [contradiction|reflexivity].
Qed.

Lemma no_double_comma_app_l a b :
  Forall (fun c => c <> ","%char) a -> no_double_comma b = true ->
  no_double_comma (a ++ b) = true.
Proof.
  induction 1 as [|x a Hx Ha IH]; intros Hb; [exact Hb|].
  simpl. destruct (a ++ b) as [|y t] eqn:E; [reflexivity|].
  change (negb (Ascii.eqb x ","%char && Ascii.eqb y ","%char) && no_double_comma (y :: t) = true).
  rewrite IH by exact Hb. destruct (Ascii.eqb_spec x ","%char); [contradiction|reflexivity].
Qed.

Lemma no_double_comma_app a b :
  no_double_comma a = true -> no_double_comma b = true -> no_leading_comma b = true ->
  no_double_comma (a ++ b) = true.
Proof.
  induction a as [|x a IH]; intros Ha Hb Hl; [exact Hb|].
  destruct a as [|y a].
  - simpl. destruct b as [|y t]; [reflexivity|].
    change (negb (Ascii.eqb x ","%char && Ascii.eqb y ","%char) && no_double_comma (y :: t) = true).
    simpl in Hl. rewrite Hb. destruct (Ascii.eqb y ","%char); [discriminate|].
    by rewrite andb_false_r.
  - change (negb (Ascii.eqb x ","%char && Ascii.eqb y ","%char) && no_double_comma (y :: a) = true) in Ha.
    apply andb_prop in Ha as [Hxy Ha].
    change (negb (Ascii.eqb x ","%char && Ascii.eqb y ","%char) && no_double_comma ((y :: a) ++ b) = true).
    by rewrite Hxy, IH.
Qed.

Lemma no_double_comma_comma_cons s :
  Forall (fun c => c <> ","%char) s -> no_double_comma (","%char :: s) = true.
Proof.
  intros Hs. destruct s as [|y s]; [reflexivity|].
  change (negb (Ascii.eqb ","%char ","%char && Ascii.eqb y ","%char) && no_double_comma (y :: s) = true).
  inversion Hs; subst. rewrite no_double_comma_no_comma by assumption.
  destruct (Ascii.eqb_spec y ","%char); [contradiction|reflexivity].
Qed.

Lemma no_double_comma_false a b :
  no_double_comma (a ++ ","%char :: ","%char :: b) = false.
Proof.
  induction a as [|x a IH]; [reflexivity|].
  change (no_double_comma (x :: (a ++ ","%char :: ","%char :: b)) = false).
  destruct (a ++ ","%char :: ","%char :: b) as [|y t] eqn:E; [by destruct a|].
  change (negb (Ascii.eqb x ","%char && Ascii.eqb y ","%char) && no_double_comma (y :: t) = false).
  by rewrite IH, andb_false_r.
Qed.

Lemma no_leading_comma_app a b :
  a <> [] -> Forall (fun c => c <> ","%char) a -> no_leading_comma (a ++ b) = true.
Proof.
  intros Hne Ha. destruct a as [|x a]; [contradiction|].
  inversion Ha; subst. simpl. by destruct (Ascii.eqb_spec x ","%char).
Qed.

End DiceTokenLanguage.

Module DiceTokenShape.
Import Re DiceSyntax DiceTokenLanguage.

Lemma space_ok c : is_space c = true -> c <> "]"%char /\ c <> ","%char.
Proof. intros H. split; intros ->; discriminate. Qed.

Lemma digit_ok c : is_digit c = true -> c <> "]"%char /\ c <> ","%char.
Proof. intros H. split; intros ->; discriminate. Qed.

Lemma no_leading_comma_app_l a b :
  Forall (fun c => c <> ","%char) a -> no_leading_comma b = true ->
  no_leading_comma (a ++ b) = true.
Proof.
  intros Ha Hb. destruct a as [|x a]; [exact Hb|].
  inversion Ha; subst. simpl. by destruct (Ascii.eqb_spec x ","%char).
Qed.

Lemma no_leading_comma_cons c l : c <> ","%char -> no_leading_comma (c :: l) = true.
Proof. intros H. simpl. by destruct (Ascii.eqb_spec c ","%char). Qed.

Ltac forall_chars :=
  repeat first
    [ apply Forall_app; split
    | apply Forall_nil
    | apply Forall_cons; split
    | match goal with
      | H : Forall (fun c => is_space c = true) ?l |- Forall _ ?l =>
          eapply Forall_impl; [exact H|]; intros ?c ?Hc; apply space_ok in Hc; tauto
      | H : Forall (fun c => is_digit c = true) ?l |- Forall _ ?l =>
          eapply Forall_impl; [exact H|]; intros ?c ?Hc; apply digit_ok in Hc; tauto
      | H : is_digit ?c = true |- ?c <> _ =>
          let H' := fresh in pose proof (digit_ok c H) as H'; tauto
      end
    | discriminate
    | exact I ].

Ltac nd_tac :=
  repeat first
    [ reflexivity
    | match goal with
      | |- no_double_comma (?a ++ ?b) = true =>
          apply (no_double_comma_app_l a b); [solve [forall_chars]|]
      | |- no_double_comma (","%char :: ?l) = true =>
          apply no_double_comma_comma_cons; solve [forall_chars]
      | |- no_double_comma (?c :: ?l) = true =>
          apply (no_double_comma_app_l [c] l); [solve [forall_chars]|]
      end
    | apply no_double_comma_no_comma; solve [forall_chars] ].

Ltac nlc_tac :=
  repeat first
    [ match goal with
      | |- no_leading_comma (?a ++ ?b) = true =>
          apply (no_leading_comma_app_l a b); [solve [forall_chars]|]
      | |- no_leading_comma (?c :: ?l) = true =>
          apply no_leading_comma_cons; solve [forall_chars]
      end
    | reflexivity ].

Ltac subst_lits :=
  repeat match goal with H : Ascii.eqb _ _ = true |- _ => apply lit_eq in H; subst end.

Lemma face_sep_inv s : in_re face_sep s ->
  Forall (fun c => c <> "]"%char) s /\ no_double_comma s = true /\ no_leading_comma s = true.
Proof.
  unfold face_sep, sign, D, W, RPlus, ROpt, RLit. intros H. inv_re; subst_lits; simpl.
  all: split; [forall_chars | split; [nd_tac | nlc_tac]].
Qed.

Lemma face_seps_inv s : in_re (RStar face_sep) s ->
  Forall (fun c => c <> "]"%char) s /\ no_double_comma s = true /\ no_leading_comma s = true.
Proof.
  apply (star_inv (fun s => Forall (fun c => c <> "]"%char) s /\
    no_double_comma s = true /\ no_leading_comma s = true));
    [apply face_sep_inv | repeat constructor |].
  intros a b (Ha1 & Ha2 & Ha3) (Hb1 & Hb2 & Hb3). split; [by apply Forall_app|].
  split; [by apply no_double_comma_app|].
  destruct a as [|x a]; [exact Hb3 | exact Ha3].
Qed.

Lemma face_list_inv t : in_re face_list t ->
  exists body, t = "["%char :: body ++ ["]"%char] /\
    Forall (fun c => c <> "]"%char) body /\ no_double_comma body = true /\
    exists c, In c body /\ is_digit c = true.
Proof.
  unfold face_list. intros H.
  apply cat_inv in H as (s1 & s2 & -> & H1 & H2).
  unfold RLit in H1. apply class_inv in H1 as (? & -> & ?). subst_lits.
  apply cat_inv in H2 as (fs & rest & -> & Hfs & Hrest).
  apply face_seps_inv in Hfs as (Hfs1 & Hfs2 & Hfs3).
  unfold sign, D, W, RPlus, ROpt, RLit in Hrest. inv_re; subst_lits; simpl.
  all: eexists; split;
    [ apply (f_equal (cons "["%char)); rewrite ?app_comm_cons, ?app_assoc; reflexivity |].
  all: rewrite <- ?app_assoc; simpl.
  all: split; [apply Forall_app; split; [exact Hfs1 | forall_chars] |].
  all: split; [apply no_double_comma_app; [exact Hfs2 | nd_tac | nlc_tac] |].
  all: match goal with
       | H : is_digit ?c = true |- exists d, In d ?l /\ _ =>
           exists c; split; [apply in_app_iff; right; simpl; auto | exact H]
       end.
Qed.

Lemma dice_re_inv p : in_re dice_re p ->
  exists n t, p = n ++ "d"%char :: t /\ Forall (fun c => is_digit c = true) n /\
    ((exists c t', t = c :: t' /\ is_digit c = true) \/
     t = ["%"%char] \/ t = ["F"%char] \/
     exists body, t = "["%char :: body ++ ["]"%char] /\
       Forall (fun c => c <> "]"%char) body /\ no_double_comma body = true /\
       exists c, In c body /\ is_digit c = true).
Proof.
  unfold dice_re. intros H.
  apply cat_inv in H as (n & s2 & -> & Hn & H2).
  unfold D in Hn. apply star_class_inv in Hn.
  apply cat_inv in H2 as (d & s3 & -> & Hd & H3).
  unfold RLit in Hd. apply class_inv in Hd as (? & -> & ?). subst_lits.
  apply cat_inv in H3 as (t & e & -> & Ht & He). apply eps_inv in He as ->.
  exists n, t. rewrite app_nil_r. split; [reflexivity|]. split; [exact Hn|].
  apply alt_inv in Ht as [Ht | Ht].
  - unfold D, RPlus in Ht. inv_re. left. simpl. eauto.
  - apply alt_inv in Ht as [Ht | Ht].
    + unfold RLit in Ht. inv_re. subst_lits. right. left. reflexivity.
    + apply alt_inv in Ht as [Ht | Ht].
      * unfold RLit in Ht. inv_re. subst_lits. right. right. left. reflexivity.
      * right. right. right. by apply face_list_inv.
Qed.

Lemma digits_d_eq n n' x y :
  Forall (fun c => is_digit c = true) n -> Forall (fun c => is_digit c = true) n' ->
  n ++ "d"%char :: x = n' ++ "d"%char :: y -> n = n' /\ x = y.
Proof.
  intros Hn. revert n'. induction Hn as [|a n Ha Hn IH]; intros n' Hn' E.
  - destruct Hn' as [|b n' Hb Hn']; [by injection E|].
    injection E as <- _. discriminate.
  - destruct Hn' as [|b n' Hb Hn']; [injection E as -> _; discriminate|].
    injection E as <- E. destruct (IH n' Hn' E) as [-> ->]. auto.
Qed.

Lemma prefix_split (l1 l2 r q : list ascii) c :
  l1 ++ c :: q = l2 ++ r -> ~ In c l2 -> exists m, l1 = l2 ++ m /\ m ++ c :: q = r.
Proof.
  revert l1. induction l2 as [|x l2 IH]; intros l1 E Hc; [eauto|].
  destruct l1 as [|y l1].
  - injection E as -> _. exfalso. apply Hc. left. reflexivity.
  - injection E as -> E. destruct (IH l1 E) as (m & -> & Hm); [intros Hin; apply Hc; right; exact Hin|].
    eauto.
Qed.

(** A [DICE] match of a string starting with [N d [] is a face list that
    ends inside it. *)
Lemma dice_face_list_prefix n s :
  Forall (fun c => is_digit c = true) n ->
  matches_prefix dice_re (n ++ "d"%char :: "["%char :: s) ->
  exists body q, s = body ++ "]"%char :: q /\
    Forall (fun c => c <> "]"%char) body /\ no_double_comma body = true /\
    exists c, In c body /\ is_digit c = true.
Proof.
  intros Hn (p & q & E & Hp).
  apply dice_re_inv in Hp as (n' & t & -> & Hn' & Ht).
  rewrite <- app_assoc in E. simpl in E.
  apply digits_d_eq in E as [_ E]; [|exact Hn|exact Hn'].
  destruct Ht as [(c & t' & -> & Hc) | [-> | [-> | (body & -> & Hb)]]]; simpl in E.
  - injection E as <- _. discriminate.
  - injection E as E1 _. discriminate.
  - injection E as E1 _. discriminate.
  - rewrite <- app_assoc in E. simpl in E. injection E as E. exists body, q. auto.
Qed.

End DiceTokenShape.

Module DiceTokenResults.
Import Re DiceSyntax DiceTokenLanguage DiceTokenShape.

Lemma re_match_token_false s :
  ~ matches_prefix dice_re (list_ascii_of_string s) ->
  re_match TOKEN_REGEX s = Some false.
Proof.
  intros H. unfold re_match. rewrite compile_token_regex. f_equal.
  destruct (match_prefix dice_re (list_ascii_of_string s)) eqn:E; [|reflexivity].
  exfalso. apply H, ReFacts.match_prefix_correct, E.
Qed.


Lemma not_in_close_of_spaces (w : list ascii) :
  Forall (fun c => is_space c = true) w -> ~ In "]"%char w.
Proof.
  intros Hw Hin. rewrite List.Forall_forall in Hw. specialize (Hw _ Hin). discriminate.
Qed.

Lemma dice_token_alt_tail (n t : list ascii) :
  Forall (fun c => is_digit c = true) n ->
  in_re (RAlt (RCat (RPlus D) REps) (RAlt (RCat (RLit "%"%char) REps)
    (RAlt (RCat (RLit "F"%char) REps) face_list))) t ->
  re_match TOKEN_REGEX (string_of_list_ascii (n ++ "d"%char :: t)) = Some true.
Proof.
  intros Hn Ht. apply DiceTokenFacts.re_match_token.
  rewrite list_ascii_of_string_of_list_ascii.
  exists (n ++ "d"%char :: t), []. split; [by rewrite app_nil_r|].
  apply (DiceTokenFacts.in_cat_app _ _ n ("d"%char :: t)); [reflexivity| |].
  - by apply DiceTokenFacts.in_star_class.
  - apply (DiceTokenFacts.in_cat_app _ _ ["d"%char] t); [reflexivity| |].
    + constructor. reflexivity.
    + by apply DiceTokenFacts.in_cat_eps.
Qed.

End DiceTokenResults.

(** The [DICE] pattern never accepts an empty face list: [N d [ ] ] with
    only whitespace between the brackets is rejected, whatever follows. *)
Theorem dice_token_rejects_empty_face_list (n w rest : list ascii) :
  Forall (fun c => Re.is_digit c = true) n ->
  Forall (fun c => Re.is_space c = true) w ->
  Re.re_match DiceSyntax.TOKEN_REGEX
    (string_of_list_ascii (n ++ "d"%char :: "["%char :: w ++ "]"%char :: rest))
  = Some false.
Proof.
  intros Hn Hw. apply DiceTokenResults.re_match_token_false.
  rewrite list_ascii_of_string_of_list_ascii. intros Hm.
  apply DiceTokenShape.dice_face_list_prefix in Hm
    as (body & q & E & Hb1 & Hb2 & c & Hc & Hdc); [|exact Hn].
  symmetry in E.
  apply DiceTokenShape.prefix_split in E as (m & -> & Em);
    [|by apply DiceTokenResults.not_in_close_of_spaces].
  destruct m as [|x m].
  - rewrite app_nil_r in Hc. rewrite List.Forall_forall in Hw.
    pose proof (DiceTokenLanguage.digit_not_space c Hdc). rewrite (Hw c Hc) in *. discriminate.
  - injection Em as -> _. rewrite List.Forall_forall in Hb1.
    apply (Hb1 "]"%char); [apply in_app_iff; right; left; reflexivity | reflexivity].
Qed.

Lemma dice_token_rejects_empty_face_list_witness :
  Forall (fun c => Re.is_digit c = true) ["5"%char] /\
  Re.re_match DiceSyntax.TOKEN_REGEX "5d[]" = Some false.
Proof.
  split; [repeat constructor|].
  exact (dice_token_rejects_empty_face_list ["5"%char] [] []
           ltac:(repeat constructor) ltac:(constructor)).
Defined.

(** The [DICE] pattern never accepts two adjacent commas inside a face
    list: [N d [ pre , , post] is rejected when [pre] has no [ ] ]. *)
Theorem dice_token_rejects_double_comma (n pre post : list ascii) :
  Forall (fun c => Re.is_digit c = true) n -> ~ In "]"%char pre ->
  Re.re_match DiceSyntax.TOKEN_REGEX
    (string_of_list_ascii (n ++ "d"%char :: "["%char :: pre ++ ","%char :: ","%char :: post))
  = Some false.
Proof.
  intros Hn Hpre. apply DiceTokenResults.re_match_token_false.
  rewrite list_ascii_of_string_of_list_ascii. intros Hm.
  apply DiceTokenShape.dice_face_list_prefix in Hm
    as (body & q & E & Hb1 & Hb2 & _); [|exact Hn].
  symmetry in E. apply DiceTokenShape.prefix_split in E as (m & -> & Em); [|exact Hpre].
  destruct m as [|x m]; [discriminate|]. injection Em as -> Em.
  destruct m as [|y m]; [discriminate|]. injection Em as -> _.
  by rewrite DiceTokenLanguage.no_double_comma_false in Hb2.
Qed.

Lemma dice_token_rejects_double_comma_witness :
  Forall (fun c => Re.is_digit c = true) [] /\ ~ In "]"%char ["1"%char] /\
  Re.re_match DiceSyntax.TOKEN_REGEX "d[1,,2]" = Some false.
Proof.
  split; [constructor|]. split; [simpl; intros [H | []]; discriminate|].
  exact (dice_token_rejects_double_comma [] ["1"%char] ["2"%char; "]"%char]
           ltac:(constructor) ltac:(simpl; intros [H | []]; discriminate)).
Defined.

(** The [DICE] pattern never accepts a face list that is not closed:
    [N d [ s] is rejected when [s] has no [ ] ]. *)
Theorem dice_token_rejects_unclosed_face_list (n s : list ascii) :
  Forall (fun c => Re.is_digit c = true) n -> ~ In "]"%char s ->
  Re.re_match DiceSyntax.TOKEN_REGEX (string_of_list_ascii (n ++ "d"%char :: "["%char :: s))
  = Some false.
Proof.
  intros Hn Hs. apply DiceTokenResults.re_match_token_false.
  rewrite list_ascii_of_string_of_list_ascii. intros Hm.
  apply DiceTokenShape.dice_face_list_prefix in Hm as (body & q & -> & _); [|exact Hn].
  apply Hs, in_app_iff. right. left. reflexivity.
Qed.

Lemma dice_token_rejects_unclosed_face_list_witness :
  Forall (fun c => Re.is_digit c = true) ["1"%char] /\
  ~ In "]"%char (list_ascii_of_string "1, 2, 3") /\
  Re.re_match DiceSyntax.TOKEN_REGEX "1d[1, 2, 3" = Some false.
Proof.
  split; [repeat constructor|]. split; [simpl; intuition discriminate|].
  exact (dice_token_rejects_unclosed_face_list ["1"%char] (list_ascii_of_string "1, 2, 3")
           ltac:(repeat constructor) ltac:(simpl; intuition discriminate)).
Defined.

(** Every string the [DICE] pattern accepts starts with an optional digit
    string, then [d], then a digit, [%], [F] or [ [ ]. *)
Theorem dice_token_match_shape (s : string) :
  Re.re_match DiceSyntax.TOKEN_REGEX s = Some true ->
  exists n c rest, list_ascii_of_string s = n ++ "d"%char :: c :: rest /\
    Forall (fun c => Re.is_digit c = true) n /\
    (Re.is_digit c = true \/ c = "%"%char \/ c = "F"%char \/ c = "["%char).
Proof.
  intros H. apply DiceTokenFacts.re_match_token in H as (p & q & -> & Hp).
  apply DiceTokenShape.dice_re_inv in Hp as (n & t & -> & Hn & Ht).
  destruct Ht as [(c & t' & -> & Hc) | [-> | [-> | (body & -> & _)]]];
    eexists n, _, _; (split; [rewrite <- app_assoc; reflexivity | split; [exact Hn|]]); auto.
Qed.

Lemma dice_token_match_shape_witness :
  Re.re_match DiceSyntax.TOKEN_REGEX "2d6" = Some true /\
  exists n c rest, list_ascii_of_string "2d6" = n ++ "d"%char :: c :: rest /\
    Forall (fun c => Re.is_digit c = true) n /\
    (Re.is_digit c = true \/ c = "%"%char \/ c = "F"%char \/ c = "["%char).
Proof.
  split; [vm_compute; reflexivity|].
  apply dice_token_match_shape. vm_compute. reflexivity.
Defined.

(** The percentile and fate forms [Nd%] and [NdF] are [DICE] tokens for
    every optional digit string [N]. *)
Theorem dice_token_percentile_fate (n : list ascii) :
  Forall (fun c => Re.is_digit c = true) n ->
  Re.re_match DiceSyntax.TOKEN_REGEX (string_of_list_ascii (n ++ ["d"%char; "%"%char])) = Some true /\
  Re.re_match DiceSyntax.TOKEN_REGEX (string_of_list_ascii (n ++ ["d"%char; "F"%char])) = Some true.
Proof.
  intros Hn. split; apply DiceTokenResults.dice_token_alt_tail; try exact Hn.
  - apply Re.in_alt_r, Re.in_alt_l, DiceTokenFacts.in_cat_eps. by constructor.
  - apply Re.in_alt_r, Re.in_alt_r, Re.in_alt_l, DiceTokenFacts.in_cat_eps. by constructor.
Qed.

Lemma dice_token_percentile_fate_witness :
  Forall (fun c => Re.is_digit c = true) ["3"%char] /\
  Re.re_match DiceSyntax.TOKEN_REGEX "3d%" = Some true /\
  Re.re_match DiceSyntax.TOKEN_REGEX "3dF" = Some true.
Proof.
  split; [repeat constructor|].
  exact (dice_token_percentile_fate ["3"%char] ltac:(repeat constructor)).
Defined.



(** The [ADD] token pattern [\+] matches exactly the strings that start
    with [+]. *)
Theorem add_token_match (s : string) :
  Re.re_match PydiceSyntax.TOKEN_REGEX s = Some true <->
  exists rest, list_ascii_of_string s = "+"%char :: rest.
Proof.
  unfold Re.re_match.
  replace (Re.compile PydiceSyntax.TOKEN_REGEX) with
    (Some (Re.RCat (Re.RLit "+"%char) Re.REps)) by (vm_compute; reflexivity).
  split.
  - intros H. injection H as H. apply ReFacts.match_prefix_correct in H as (p & q & -> & Hp).
    apply DiceTokenLanguage.cat_inv in Hp as (a & b & -> & Ha & Hb).
    unfold Re.RLit in Ha. apply DiceTokenLanguage.class_inv in Ha as (c & -> & Hc).
    apply DiceTokenLanguage.lit_eq in Hc as ->. apply DiceTokenLanguage.eps_inv in Hb as ->.
    eexists. reflexivity.
  - intros (rest & E). f_equal. apply ReFacts.match_prefix_correct.
    rewrite E. exists ["+"%char], rest. split; [reflexivity|].
    apply DiceTokenFacts.in_cat_eps. constructor. reflexivity.
Qed.
